(** * The endpoint worker call sequencer (api/src/endpoint.ts)

    A shallow embedding of the module that turns the single message channel
    to [endpointWorker] into a request/response interface: the [resolvers]
    queue, the three channel handlers, [toWorker], [endOfRequest] and the
    body reader built by [callHandler].

    The module is event-driven JavaScript.  Its state is threaded explicitly:
    the [resolvers] array, the store of the promises created by [toWorker],
    the log of [postMessage] calls and the queue of promise reaction jobs
    (microtasks).  A handler that can throw returns a [Completion]. *)

From Stdlib Require Import ZArith Lia.
From stdpp Require Import base list strings.

Open Scope string_scope.
Open Scope list_scope.
Open Scope nat_scope.

#[local] Set Warnings "-register-all".

(** ** JavaScript values *)

(** The values that cross the channel are structured clones: primitives,
    [Error] objects and plain objects.  Numbers are kept as integers, with
    [VNaN] apart, which is all that truthiness distinguishes. *)
Inductive JsVal : Type :=
  | VUndefined
  | VNull
  | VBool (b : bool)
  | VNum (n : Z)
  | VNaN
  | VStr (s : string)
  | VError (name message : string)
  | VObj (fields : list (string * JsVal)).

(** A thrown or settled outcome of a piece of code. *)
Inductive Completion (A : Type) : Type :=
  | Normal (a : A)
  | Throw (e : JsVal).
Arguments Normal {A} a.
Arguments Throw {A} e.

Definition type_error (what : string) : JsVal := VError "TypeError" what.

(** ToBoolean. *)
Definition truthy (v : JsVal) : bool :=
  match v with
  | VUndefined | VNull | VNaN => false
  | VBool b => b
  | VNum n => negb (n =? 0)%Z
  | VStr s => negb (String.eqb s "")
  | VError _ _ | VObj _ => true
  end.

Fixpoint own_field (k : string) (fields : list (string * JsVal)) : JsVal :=
  match fields with
  | [] => VUndefined
  | (k', v) :: rest => if String.eqb k k' then v else own_field k rest
  end.

(** [o.k] for the property names this module reads ([err], [value], [body],
    [status], [headers], [msg]): a [TypeError] on [undefined] and [null],
    the own property of a plain object, [undefined] on anything else. *)
Definition get_field (o : JsVal) (k : string) : Completion JsVal :=
  match o with
  | VUndefined | VNull => Throw (type_error k)
  | VObj fields => Normal (own_field k fields)
  | _ => Normal VUndefined
  end.

(** ** Promises and the module state *)

Inductive Settle : Type :=
  | Pending
  | Fulfilled (v : JsVal)
  | Rejected (e : JsVal).

(** [type Resolver = { resolve, reject, msg }].  The two closures are the
    resolving functions of a promise created by [toWorker]; each is kept as
    the index of the promise it settles. *)
Record Resolver : Type := {
  resolve : nat;
  reject : nat;
  msg : JsVal
}.

(** The [i]-th activation of [toWorker] owns [promises !! i] (its local [p])
    and [handles !! i] (the promise the async function returned). *)
Record State : Type := {
  resolvers : list Resolver;
  promises : list Settle;
  handles : list Settle;
  posted : list JsVal;
  jobs : list nat
}.

Definition init : State :=
  {| resolvers := []; promises := []; handles := []; posted := []; jobs := [] |}.

(** [endpointWorker.postMessage(m)] *)
Definition postMessage (m : JsVal) (st : State) : State :=
  {| resolvers := resolvers st; promises := promises st; handles := handles st;
     posted := posted st ++ [m]; jobs := jobs st |}.

(** [resolvers.push(r)] *)
Definition push (r : Resolver) (st : State) : State :=
  {| resolvers := resolvers st ++ [r]; promises := promises st;
     handles := handles st; posted := posted st; jobs := jobs st |}.

(** [resolvers.shift()] *)
Definition shift (st : State) : State :=
  {| resolvers := tail (resolvers st); promises := promises st;
     handles := handles st; posted := posted st; jobs := jobs st |}.

(** [new Promise(...)] together with the promise of the async activation. *)
Definition new_promise (st : State) : nat * State :=
  (length (promises st),
   {| resolvers := resolvers st; promises := promises st ++ [Pending];
      handles := handles st ++ [Pending]; posted := posted st;
      jobs := jobs st |}).

(** A resolving function called with outcome [o].  It acts once: on a
    promise that is already settled it does nothing.  The reaction of the
    activation awaiting the promise is queued as a job; an activation that
    has already completed (its handle is settled) awaits nothing. *)
Definition settle (p : nat) (o : Settle) (st : State) : State :=
  match promises st !! p with
  | Some Pending =>
      {| resolvers := resolvers st; promises := <[p := o]> (promises st);
         handles := handles st; posted := posted st;
         jobs := match handles st !! p with
                 | Some Pending => jobs st ++ [p]
                 | _ => jobs st
                 end |}
  | _ => st
  end.

Definition set_handle (p : nat) (o : Settle) (st : State) : State :=
  {| resolvers := resolvers st; promises := promises st;
     handles := <[p := o]> (handles st); posted := posted st;
     jobs := jobs st |}.

Definition pop_job (st : State) : State :=
  {| resolvers := resolvers st; promises := promises st;
     handles := handles st; posted := posted st; jobs := tail (jobs st) |}.

(** ** The channel handlers *)

(** [endpointWorker.onmessageerror = function (e) { throw e; }] *)
Definition onmessageerror (e : JsVal) (st : State) : Completion unit * State :=
  (Throw e, st).

(** [endpointWorker.onerror = function (e) { throw e; }] *)
Definition onerror (e : JsVal) (st : State) : Completion unit * State :=
  (Throw e, st).

(** [endpointWorker.onmessage]: [resolvers[0]] is [undefined] on an empty
    array, and calling a method of [undefined] is a [TypeError]. *)
Definition onmessage (data : JsVal) (st : State) : Completion unit * State :=
  let resolver := head (resolvers st) in
  let d := data in
  match get_field d "err" with
  | Throw x => (Throw x, st)
  | Normal e =>
      if truthy e then
        match resolver with
        | None => (Throw (type_error "reject"), st)
        | Some r => (Normal tt, settle (reject r) (Rejected e) st)
        end
      else
        match resolver with
        | None => (Throw (type_error "resolve"), st)
        | Some r =>
            match get_field d "value" with
            | Throw x => (Throw x, st)
            | Normal v => (Normal tt, settle (resolve r) (Fulfilled v) st)
            end
        end
  end.

(** ** toWorker *)

(** [endpointWorker.postMessage(resolvers[0].msg)] *)
Definition post_head (st : State) : Completion unit * State :=
  match head (resolvers st) with
  | None => (Throw (type_error "msg"), st)
  | Some r => (Normal tt, postMessage (msg r) st)
  end.

(** The body of [toWorker] up to its [await p]. *)
Definition toWorker_body (m : JsVal) (st : State)
  : nat * (Completion unit * State) :=
  let '(p, st1) := new_promise st in
  let st2 := push {| resolve := p; reject := p; msg := m |} st1 in
  (p, if (length (resolvers st2) =? 1)%nat then post_head st2 else (Normal tt, st2)).

(** A call of the async function [toWorker]: it returns its promise, the
    handle; an exception of the body would reject the handle. *)
Definition toWorker (m : JsVal) (st : State) : Completion nat * State :=
  match toWorker_body m st with
  | (p, (Normal _, st')) => (Normal p, st')
  | (p, (Throw e, st')) => (Normal p, set_handle p (Rejected e) st')
  end.

(** The [finally] block of [toWorker]. *)
Definition finally_block (st : State) : Completion unit * State :=
  let st1 := shift st in
  if negb (length (resolvers st1) =? 0)%nat then post_head st1
  else (Normal tt, st1).

(** The activation [p] of [toWorker] resumed after its [await p]: the
    [finally] block runs, then the handle takes the outcome of [p]
    ([return await p], or the exception of the [await] thrown again). *)
Definition resume (p : nat) (st : State) : State :=
  let result := default Pending (promises st !! p) in
  match finally_block st with
  | (Normal _, st') => set_handle p result st'
  | (Throw e, st') => set_handle p (Rejected e) st'
  end.

(** ** endOfRequest and callHandler *)

Definition endOfRequest_msg (id : Z) : JsVal :=
  VObj [("cmd", VStr "endOfRequest"); ("id", VNum id)].

(** [export function endOfRequest(id)]: not async, returns [undefined]. *)
Definition endOfRequest (id : Z) (st : State) : Completion JsVal * State :=
  (Normal VUndefined, postMessage (endOfRequest_msg id) st).

Definition callHandler_msg (path apiVersion : string) (id : Z) : JsVal :=
  VObj [("cmd", VStr "callHandler"); ("path", VStr path);
        ("apiVersion", VStr apiVersion); ("id", VNum id)].

(** The object [callHandler] returns; [body] is the variable captured by
    the [read] closure. *)
Record Response : Type := {
  status : JsVal;
  headers : JsVal;
  body : JsVal
}.

(** [callHandler] after [await toWorker(...)] gave [res]. *)
Definition callHandler_result (res : JsVal) : Completion Response :=
  match get_field res "body" with
  | Throw x => Throw x
  | Normal b =>
      match get_field res "status" with
      | Throw x => Throw x
      | Normal s =>
          match get_field res "headers" with
          | Throw x => Throw x
          | Normal h => Normal {| status := s; headers := h; body := b |}
          end
      end
  end.

(** [read]: [const ret = body; body = undefined; return ret;] *)
Definition read (r : Response) : JsVal * Response :=
  (body r, {| status := status r; headers := headers r; body := VUndefined |}).

(** The results of [n] successive calls of [read]. *)
Fixpoint reads (n : nat) (r : Response) : list JsVal :=
  match n with
  | O => []
  | S n' => let '(v, r') := read r in v :: reads n' r'
  end.

(** ** The event loop *)

(** What happens to the sequencer: a caller invokes [toWorker], a message
    of the worker is dispatched to [onmessage], or the next reaction job
    runs. *)
Inductive Event : Type :=
  | Call (m : JsVal)
  | Reply (data : JsVal)
  | Tick.

Definition step (ev : Event) (st : State) : State :=
  match ev with
  | Call m => snd (toWorker m st)
  | Reply d => snd (onmessage d st)
  | Tick =>
      match jobs st with
      | [] => st
      | p :: _ => resume p (pop_job st)
      end
  end.

Definition run (tr : list Event) (st : State) : State :=
  foldl (fun s ev => step ev s) st tr.

(** [l.length == 0] *)
Definition is_nil {A} (l : list A) : bool :=
  match l with [] => true | _ => false end.

(** The payload is neither [undefined] nor [null]: reading [d.err] does not
    throw. *)
Definition has_fields (d : JsVal) : bool :=
  match get_field d "err" with Normal _ => true | Throw _ => false end.

(** A message event is a task of its own: all reaction jobs have run when
    it is dispatched.  The worker answers requests: it replies only while a
    request is waiting at the head of the queue, with a payload that has
    fields. *)
Definition enabled (ev : Event) (st : State) : bool :=
  match ev with
  | Reply d => is_nil (jobs st) && negb (is_nil (resolvers st)) && has_fields d
  | _ => true
  end.

Fixpoint valid (st : State) (tr : list Event) : bool :=
  match tr with
  | [] => true
  | ev :: tr' => enabled ev st && valid (step ev st) tr'
  end.

Definition calls_of (tr : list Event) : list JsVal :=
  omap (fun ev => match ev with Call m => Some m | _ => None end) tr.

Definition replies_of (tr : list Event) : list JsVal :=
  omap (fun ev => match ev with Reply d => Some d | _ => None end) tr.

(** A reply and the reaction job that follows it. *)
Definition answer (d : JsVal) : list Event := [Reply d; Tick].

(** The field [k] of a payload, [undefined] where there is none. *)
Definition field (d : JsVal) (k : string) : JsVal :=
  match d with VObj fields => own_field k fields | _ => VUndefined end.

(** The outcome a reply payload encodes, in the words of the specification:
    a payload with an error indicator stands for a failure with that error,
    any other payload for a success with the value it carries. *)
Definition outcome (d : JsVal) : Settle :=
  if truthy (field d "err") then Rejected (field d "err")
  else Fulfilled (field d "value").

(** ** The invariant of the sequencer *)

(** The queue entries of consecutive activations, the first one being
    activation [i]. *)
Fixpoint queue_from (i : nat) (ms : list JsVal) : list Resolver :=
  match ms with
  | [] => []
  | m :: ms' => {| resolve := i; reject := i; msg := m |} :: queue_from (S i) ms'
  end.

(** The number of activations that have left the queue: those whose [p] is
    settled, less the one whose reaction job is still waiting to run. *)
Definition served (outs : list Settle) (st : State) : nat :=
  length outs - length (jobs st).

(** [msgs] are the payloads of the calls made so far, in order, and [outs]
    the outcomes delivered so far, in order. *)
Record Inv (msgs : list JsVal) (outs : list Settle) (st : State) : Prop := {
  inv_settled : Forall (fun o => o <> Pending) outs;
  inv_bound : length outs <= length msgs;
  inv_jobs : jobs st = [] \/ exists k, length outs = S k /\ jobs st = [k];
  inv_resolvers :
    resolvers st = queue_from (served outs st) (drop (served outs st) msgs);
  inv_promises :
    promises st = outs ++ replicate (length msgs - length outs) Pending;
  inv_handles :
    handles st = take (served outs st) outs
                 ++ replicate (length msgs - served outs st) Pending;
  inv_posted : posted st = take (S (served outs st)) msgs
}.

(** The outcomes the replies of a run encode, in order. *)
Definition outs_of (tr : list Event) : list Settle := outcome <$> replies_of tr.

(** Calls made while the worker is silent, then replies of the worker, each
    followed by the reaction job it triggers. *)
Definition burst (msgs ds : list JsVal) : list Event :=
  map Call msgs ++ flat_map answer ds.

(** The state of the queue machinery: everything but the channel log. *)
Definition core (st : State)
  : list Resolver * list Settle * list Settle * list nat :=
  (resolvers st, promises st, handles st, jobs st).

(** [k in o] for a plain object with the given fields. *)
Definition has_own (k : string) (fields : list (string * JsVal)) : bool :=
  existsb (String.eqb k) (map fst fields).

(** ** Sample traffic *)

Definition reqX : JsVal := VStr "X".
Definition reqY : JsVal := VStr "Y".
Definition reqZ : JsVal := VStr "Z".

(** [{ value: n }] *)
Definition ok_reply (n : Z) : JsVal := VObj [("value", VNum n)].

(** [{ err: { code } }] *)
Definition err_reply (code : string) : JsVal :=
  VObj [("err", VObj [("code", VStr code)])].

(** A call arrives between a reply and its reaction job. *)
Definition interleaved : list Event :=
  [Call reqX; Call reqY; Reply (ok_reply 1); Call reqZ; Tick].

(** ** The exported commands *)




(** The promise of [callHandler]: settled with the object it builds, or
    rejected. *)
Inductive HandlerSettle : Type :=
  | HPending
  | HFulfilled (r : Response)
  | HRejected (e : JsVal).

(** The promise of [callHandler] as a function of the state of the handle
    it awaits: an exception while building the object rejects it. *)
Definition callHandler_settle (h : Settle) : HandlerSettle :=
  match h with
  | Pending => HPending
  | Rejected e => HRejected e
  | Fulfilled res =>
      match callHandler_result res with
      | Normal r => HFulfilled r
      | Throw e => HRejected e
      end
  end.

(** * Properties *)

Section QueueFrom.

Lemma queue_from_length i ms : length (queue_from i ms) = length ms.
Proof. revert i. induction ms as [|m ms IH]; intros i; simpl; auto. Qed.

Lemma queue_from_app i xs ys :
  queue_from i (xs ++ ys) = queue_from i xs ++ queue_from (i + length xs) ys.
Proof.
  revert i. induction xs as [|x xs IH]; intros i; simpl.
  - by rewrite Nat.add_0_r.
  - rewrite IH. do 3 f_equal. lia.
Qed.

Lemma drop_succ_tail {A} (l : list A) h : drop (S h) l = tail (drop h l).
Proof.
  revert l. induction h as [|h IH]; intros [|x l]; simpl; auto.
Qed.

Lemma queue_from_tail h ms :
  tail (queue_from h (drop h ms)) = queue_from (S h) (drop (S h) ms).
Proof.
  rewrite drop_succ_tail. by destruct (drop h ms).
Qed.

Lemma queue_from_head h ms r :
  head (queue_from h (drop h ms)) = Some r ->
  resolve r = h /\ reject r = h /\ ms !! h = Some (msg r).
Proof.
  destruct (drop h ms) as [|m rest] eqn:E; simpl; [done|].
  intros [= <-]. simpl. repeat split.
  rewrite <- (Nat.add_0_r h), <- lookup_drop, E. done.
Qed.

Lemma queue_from_empty h ms :
  queue_from h (drop h ms) = [] <-> length ms <= h.
Proof.
  split.
  - intros E. apply (f_equal length) in E.
    rewrite queue_from_length, length_drop in E. simpl in E. lia.
  - intros Hle. by rewrite drop_ge.
Qed.

End QueueFrom.

Lemma has_fields_get d k :
  has_fields d = true -> get_field d k = Normal (field d k).
Proof. by destruct d. Qed.

Lemma outcome_settled d : outcome d <> Pending.
Proof. unfold outcome. by destruct (truthy _). Qed.

Lemma onmessage_head msgs outs st d :
  Inv msgs outs st -> enabled (Reply d) st = true ->
  jobs st = [] /\ served outs st = length outs /\ length outs < length msgs
  /\ promises st !! length outs = Some Pending
  /\ handles st !! length outs = Some Pending
  /\ (exists r, head (resolvers st) = Some r
        /\ resolve r = length outs /\ reject r = length outs)
  /\ onmessage d st = (Normal tt, settle (length outs) (outcome d) st).
Proof.
  intros HI Hen. unfold enabled in Hen.
  apply andb_prop in Hen as [Hen Hd]. apply andb_prop in Hen as [Hj0 Hq].
  destruct (jobs st) as [|] eqn:Ej; [clear Hj0 | done].
  destruct (resolvers st) as [|r0 rs] eqn:Er; [done | clear Hq].
  destruct HI as [Hs Hb Hj Hr Hp Hh Hpo].
  assert (Hsv : served outs st = length outs) by (unfold served; rewrite Ej; simpl; lia).
  rewrite Hsv in *.
  destruct (queue_from_head (length outs) msgs r0) as (Hres & Hrej & Hm).
  { by rewrite <- Hr, Er. }
  apply lookup_lt_Some in Hm as Hlt.
  repeat apply conj; try done.
  - rewrite Hp, lookup_app_r, Nat.sub_diag by lia.
    destruct (length msgs - length outs) eqn:E; [lia | done].
  - rewrite Hh, take_ge, lookup_app_r, Nat.sub_diag by lia.
    destruct (length msgs - length outs) eqn:E; [lia | done].
  - exists r0. by rewrite ?Er.
  - unfold onmessage, outcome. rewrite !(has_fields_get d) by done.
    rewrite Er. simpl. rewrite Hres, Hrej. by destruct (truthy (field d "err")).
Qed.

Section Preservation.

Context {msgs : list JsVal} {outs : list Settle} {st : State}.
Hypothesis HI : Inv msgs outs st.

Lemma inv_promises_length : length (promises st) = length msgs.
Proof.
  destruct HI as [_ Hb _ _ Hp _ _].
  rewrite Hp, length_app, length_replicate. lia.
Qed.

Lemma inv_idle : resolvers st = [] -> jobs st = [] /\ length outs = length msgs.
Proof.
  destruct HI as [_ Hb Hj Hr _ _ _]. intros E. rewrite E in Hr.
  symmetry in Hr. apply queue_from_empty in Hr. unfold served in Hr.
  destruct Hj as [Hj | (k & Hk & Hj)]; rewrite Hj in Hr |- *; simpl in Hr;
    [split; [done | lia] | lia].
Qed.

Lemma inv_call m : Inv (msgs ++ [m]) outs (step (Call m) st).
Proof.
  pose proof inv_promises_length as Hlen.
  pose proof inv_idle as Hidle.
  destruct HI as [Hs Hb Hj Hr Hp Hh Hpo].
  assert (Hsv : served outs (step (Call m) st) = served outs st).
  { unfold served, step, toWorker, toWorker_body, post_head. simpl.
    by destruct (resolvers st) as [|? [|? ?]]. }
  unfold step, toWorker, toWorker_body, post_head in *. simpl in *.
  destruct (resolvers st) as [|r0 rs] eqn:E; simpl in *.
  - destruct (Hidle eq_refl) as [Hj0 Hfull].
    assert (Hh0 : served outs st = length msgs) by (unfold served; rewrite Hj0; simpl; lia).
    split; simpl; rewrite ?Hsv, ?Hh0, ?length_app, ?Hlen; simpl; auto.
    + lia.
    + rewrite drop_app_length. simpl. done.
    + rewrite Hp, <- app_assoc. f_equal.
      replace (length msgs + 1 - length outs) with (S (length msgs - length outs)) by lia.
      by rewrite replicate_S_end.
    + rewrite Hh, Hh0, <- app_assoc. f_equal.
      replace (length msgs + 1 - length msgs) with (S (length msgs - length msgs)) by lia.
      by rewrite replicate_S_end.
    + rewrite Hpo, Hh0. rewrite !take_ge; [done | rewrite length_app; simpl; lia | lia].
  - assert (Hlt : served outs st < length msgs).
    { destruct (decide (served outs st < length msgs)); [done|].
      assert (Hx : length msgs <= served outs st) by lia.
      apply queue_from_empty in Hx. congruence. }
    assert (Hnot1 : (length (rs ++ [{| resolve := length (promises st); reject := length (promises st); msg := m |}]) =? 0) = false).
    { rewrite length_app. simpl. apply Nat.eqb_neq. lia. }
    rewrite Hnot1 in *. simpl in *.
    split; simpl; rewrite ?Hsv, ?length_app, ?Hlen; simpl; auto.
    + lia.
    + rewrite drop_app_le by lia. rewrite queue_from_app, <- Hr.
      rewrite length_drop. simpl.
      replace (served outs st + (length msgs - served outs st)) with (length msgs) by lia.
      done.
    + rewrite Hp, <- app_assoc. f_equal.
      replace (length msgs + 1 - length outs) with (S (length msgs - length outs)) by lia.
      by rewrite replicate_S_end.
    + rewrite Hh, <- app_assoc. f_equal.
      replace (length msgs + 1 - served outs st) with (S (length msgs - served outs st)) by lia.
      by rewrite replicate_S_end.
    + rewrite Hpo. rewrite take_app_le by lia. done.
Qed.

Lemma inv_reply d :
  enabled (Reply d) st = true ->
  Inv msgs (outs ++ [outcome d]) (step (Reply d) st).
Proof.
  intros Hen.
  destruct (onmessage_head _ _ _ d HI Hen)
    as (Ej & Hsv & Hlt & Hpp & Hhp & _ & Hon).
  destruct HI as [Hs Hb Hj Hr Hp Hh Hpo]. rewrite Hsv in *.
  unfold step. rewrite Hon. simpl. unfold settle. rewrite Hpp, Hhp, Ej.
  split; unfold served; simpl; rewrite ?length_app; simpl; rewrite ?Nat.add_sub.
  - apply Forall_app. split; [done|]. apply Forall_singleton. apply outcome_settled.
  - lia.
  - right. exists (length outs). split; [lia | done].
  - exact Hr.
  - rewrite Hp. replace (length msgs - length outs) with (S (length msgs - (length outs + 1))) by lia.
    simpl. rewrite <- (Nat.add_0_r (length outs)) at 1.
    rewrite insert_app_r. simpl. by rewrite <- app_assoc.
  - rewrite Hh. rewrite take_app_le, take_ge by lia. done.
  - done.
Qed.

Lemma inv_tick : Inv msgs outs (step Tick st).
Proof.
  destruct HI as [Hs Hb Hj Hr Hp Hh Hpo].
  destruct Hj as [Hj | (k & Hk & Hj)]; unfold step; rewrite Hj; [by split; auto|].
  assert (Hsv : served outs st = k) by (unfold served; rewrite Hj, Hk; simpl; lia).
  assert (Hout : exists o, outs !! k = Some o) by (apply lookup_lt_is_Some; lia).
  destruct Hout as [o Ho].
  assert (Hres : default Pending (promises st !! k) = o).
  { rewrite Hp, lookup_app_l, Ho by lia. done. }
  assert (Hq : tail (resolvers st) = queue_from (S k) (drop (S k) msgs)).
  { rewrite Hr, Hsv. apply queue_from_tail. }
  assert (Hhs : <[k:=o]> (handles st)
                = take (S k) outs ++ replicate (length msgs - S k) Pending).
  { rewrite Hh, Hsv. rewrite (take_S_r _ _ _ Ho), <- app_assoc. simpl.
    replace (length msgs - k) with (S (length msgs - S k)) by lia.
    simpl. rewrite <- (Nat.add_0_r k) at 1.
    replace (k + 0) with (length (take k outs) + 0) by (rewrite length_take; lia).
    by rewrite insert_app_r. }
  unfold resume, finally_block, post_head. simpl. rewrite Hres, Hq.
  destruct (queue_from (S k) (drop (S k) msgs)) as [|r rest] eqn:E; simpl.
  - apply queue_from_empty in E.
    split; unfold served; simpl; rewrite ?Hj; simpl; rewrite ?Nat.sub_0_r, ?Hk;
      auto; try lia.
    + rewrite Hq. symmetry. by apply queue_from_empty.
    + by rewrite Hp, Hk.
    + rewrite Hpo, Hsv, !take_ge by lia. done.
  - destruct (queue_from_head (S k) msgs r) as (_ & _ & Hm); [by rewrite E|].
    split; unfold served; simpl; rewrite ?Hj; simpl; rewrite ?Nat.sub_0_r, ?Hk;
      auto; try lia.
    + by rewrite Hq.
    + by rewrite Hp, Hk.
    + rewrite Hpo, Hsv. by rewrite (take_S_r _ _ _ Hm).
Qed.

End Preservation.

(** ** Runs of the event loop *)

Lemma run_app tr1 tr2 st : run (tr1 ++ tr2) st = run tr2 (run tr1 st).
Proof. apply foldl_app. Qed.

Lemma valid_app tr1 tr2 st :
  valid st (tr1 ++ tr2) = valid st tr1 && valid (run tr1 st) tr2.
Proof.
  revert st. induction tr1 as [|ev tr1 IH]; intros st; simpl; [done|].
  by rewrite IH, andb_assoc.
Qed.

Lemma valid_snoc tr ev st :
  valid st (tr ++ [ev]) = valid st tr && enabled ev (run tr st).
Proof. rewrite valid_app. cbn [valid]. by rewrite andb_true_r. Qed.

Lemma calls_of_app tr1 tr2 : calls_of (tr1 ++ tr2) = calls_of tr1 ++ calls_of tr2.
Proof. apply omap_app. Qed.

Lemma replies_of_app tr1 tr2 :
  replies_of (tr1 ++ tr2) = replies_of tr1 ++ replies_of tr2.
Proof. apply omap_app. Qed.

Lemma outs_of_app tr1 tr2 : outs_of (tr1 ++ tr2) = outs_of tr1 ++ outs_of tr2.
Proof. unfold outs_of. by rewrite replies_of_app, fmap_app. Qed.

Lemma inv_init : Inv [] [] init.
Proof. split; simpl; auto. Qed.

Lemma inv_step msgs outs st ev :
  Inv msgs outs st -> enabled ev st = true ->
  Inv (msgs ++ calls_of [ev]) (outs ++ outs_of [ev]) (step ev st).
Proof.
  intros HI Hen. destruct ev as [m|d|]; unfold outs_of; simpl;
    rewrite ?app_nil_r.
  - by apply inv_call.
  - by apply inv_reply.
  - by apply inv_tick.
Qed.

Lemma inv_run tr : forall msgs outs st,
  Inv msgs outs st -> valid st tr = true ->
  Inv (msgs ++ calls_of tr) (outs ++ outs_of tr) (run tr st).
Proof.
  induction tr as [|ev tr IH]; intros msgs outs st HI Hv.
  - unfold outs_of. simpl. by rewrite !app_nil_r.
  - simpl in Hv. apply andb_prop in Hv as [Hen Hv].
    change (ev :: tr) with ([ev] ++ tr).
    rewrite calls_of_app, outs_of_app, !app_assoc. simpl.
    apply IH; [|done]. by apply inv_step.
Qed.

Lemma reachable_inv tr :
  valid init tr = true -> Inv (calls_of tr) (outs_of tr) (run tr init).
Proof. intros Hv. apply (inv_run tr [] [] init inv_init Hv). Qed.

Section Consequences.

Context {msgs : list JsVal} {outs : list Settle} {st : State}.
Hypothesis HI : Inv msgs outs st.

Lemma inv_handle_served i :
  i < served outs st -> handles st !! i = outs !! i.
Proof.
  intros Hi. rewrite (inv_handles _ _ _ HI).
  assert (served outs st <= length outs) by (unfold served; lia).
  rewrite lookup_app_l by (rewrite length_take; lia).
  by apply lookup_take_lt.
Qed.

Lemma inv_handle_waiting i :
  served outs st <= i -> i < length msgs -> handles st !! i = Some Pending.
Proof.
  intros Hi Hn. rewrite (inv_handles _ _ _ HI).
  assert (served outs st <= length outs) by (unfold served; lia).
  rewrite lookup_app_r by (rewrite length_take; lia).
  apply lookup_replicate_2. rewrite length_take. lia.
Qed.

Lemma inv_handle_settled i o :
  handles st !! i = Some o -> o <> Pending -> i < served outs st.
Proof.
  intros Hl Ho. destruct (decide (i < served outs st)) as [|Hge]; [done|].
  exfalso. apply Ho. rewrite (inv_handles _ _ _ HI) in Hl.
  assert (served outs st <= length outs) by (unfold served; lia).
  rewrite lookup_app_r in Hl by (rewrite length_take; lia).
  by apply lookup_replicate_1 in Hl as [-> _].
Qed.

Lemma inv_promise i : i < length outs -> promises st !! i = outs !! i.
Proof. intros Hi. by rewrite (inv_promises _ _ _ HI), lookup_app_l. Qed.


Lemma inv_busy : served outs st < length msgs -> resolvers st <> [].
Proof.
  intros Hlt E. rewrite (inv_resolvers _ _ _ HI) in E.
  apply queue_from_empty in E. lia.
Qed.

Lemma inv_tick_jobs : jobs (step Tick st) = [].
Proof.
  destruct (inv_jobs _ _ _ HI) as [Hj | (k & _ & Hj)]; simpl; rewrite Hj; [done|].
  unfold resume, finally_block, post_head. simpl.
  destruct (tail (resolvers st)); simpl; by rewrite Hj.
Qed.

End Consequences.

Lemma toWorker_step m st : toWorker m st = (Normal (length (promises st)), step (Call m) st).
Proof.
  unfold step, toWorker, toWorker_body, post_head. simpl.
  by destruct (resolvers st) as [|? [|? ?]].
Qed.

Lemma step_call_jobs m st : jobs (step (Call m) st) = jobs st.
Proof.
  unfold step, toWorker, toWorker_body, post_head. simpl.
  by destruct (resolvers st) as [|? [|? ?]].
Qed.

Lemma step_reply_handles d st : handles (step (Reply d) st) = handles st.
Proof.
  unfold step, onmessage, settle. simpl.
  destruct (get_field d "err") as [e|]; [|done].
  destruct (truthy e), (head (resolvers st)) as [r|]; simpl; try done.
  - by destruct (promises st !! reject r) as [[]|].
  - destruct (get_field d "value"); [|done]. simpl.
    by destruct (promises st !! resolve r) as [[]|].
Qed.

Lemma handle_stable_step msgs outs st ev i o :
  Inv msgs outs st ->
  handles st !! i = Some o -> o <> Pending ->
  handles (step ev st) !! i = Some o.
Proof.
  intros HI Hl Ho. pose proof (inv_handle_settled HI i o Hl Ho) as Hi.
  destruct ev as [m|d|].
  - unfold step, toWorker, toWorker_body, post_head. simpl.
    destruct (resolvers st) as [|? [|? ?]]; simpl; by apply lookup_app_l_Some.
  - by rewrite step_reply_handles.
  - simpl. destruct (inv_jobs _ _ _ HI) as [Hj | (k & Hk & Hj)]; rewrite Hj; [done|].
    assert (i <> k) by (unfold served in Hi; rewrite Hj in Hi; simpl in Hi; lia).
    unfold resume, finally_block, post_head. simpl.
    destruct (tail (resolvers st)); simpl; by rewrite list_lookup_insert_ne.
Qed.

Lemma handle_stable_run tr : forall msgs outs st i o,
  Inv msgs outs st -> valid st tr = true ->
  handles st !! i = Some o -> o <> Pending ->
  handles (run tr st) !! i = Some o.
Proof.
  induction tr as [|ev tr IH]; intros msgs outs st i o HI Hv Hl Ho; [done|].
  simpl in Hv. apply andb_prop in Hv as [Hen Hv]. simpl.
  eapply IH; eauto using inv_step, handle_stable_step.
Qed.

Lemma calls_of_calls ms : calls_of (map Call ms) = ms.
Proof. induction ms as [|m ms IH]; simpl; [done|]. unfold calls_of in *. simpl. by rewrite IH. Qed.

Lemma replies_of_calls ms : replies_of (map Call ms) = [].
Proof. induction ms as [|m ms IH]; simpl; [done|]. unfold replies_of in *. simpl. by rewrite IH. Qed.

Lemma calls_of_answers ds : calls_of (flat_map answer ds) = [].
Proof. induction ds as [|d ds IH]; simpl; [done|]. unfold calls_of in *. simpl. by rewrite IH. Qed.

Lemma replies_of_answers ds : replies_of (flat_map answer ds) = ds.
Proof. induction ds as [|d ds IH]; simpl; [done|]. unfold replies_of in *. simpl. by rewrite IH. Qed.

Lemma valid_calls ms : forall st, valid st (map Call ms) = true.
Proof. induction ms as [|m ms IH]; intros st; simpl; auto. Qed.

Lemma run_calls_jobs ms : forall st, jobs (run (map Call ms) st) = jobs st.
Proof.
  induction ms as [|m ms IH]; intros st; [done|].
  change (run (map Call (m :: ms)) st) with (run (map Call ms) (step (Call m) st)).
  by rewrite IH, step_call_jobs.
Qed.

(** Calls made while the worker is silent, then one reply per call at
    most, each followed by its reaction job: a run the event loop allows,
    ending with no job left. *)
Lemma answers_valid msgs ds :
  Forall (fun d => has_fields d = true) ds -> length ds <= length msgs ->
  valid init (burst msgs ds) = true /\ jobs (run (burst msgs ds) init) = [].
Proof.
  unfold burst.
  induction ds as [|d ds IH] using rev_ind; intros Hwf Hlen.
  - simpl. rewrite app_nil_r. split; [apply valid_calls | by rewrite run_calls_jobs].
  - apply Forall_app in Hwf as [Hwf Hd]. apply Forall_inv in Hd.
    rewrite length_app in Hlen. simpl in Hlen.
    destruct IH as [Hv Hj]; [done | lia |].
    pose proof (reachable_inv _ Hv) as HI.
    rewrite calls_of_app, calls_of_calls, calls_of_answers, app_nil_r in HI.
    unfold outs_of in HI.
    rewrite replies_of_app, replies_of_calls, replies_of_answers in HI. simpl in HI.
    set (st := run (map Call msgs ++ flat_map answer ds) init) in *.
    assert (Hen : enabled (Reply d) st = true).
    { unfold enabled. rewrite Hj, Hd. simpl.
      destruct (resolvers st) eqn:E; [|done]. exfalso.
      apply (inv_busy HI); [|done]. unfold served. rewrite Hj, length_fmap. simpl. lia. }
    assert (Happ : map Call msgs ++ flat_map answer (ds ++ [d])
                   = (map Call msgs ++ flat_map answer ds) ++ answer d).
    { rewrite flat_map_app, app_assoc. by simpl. }
    rewrite Happ. split.
    + rewrite valid_app, Hv. fold st. unfold answer. cbn [valid andb].
      by rewrite Hen.
    + rewrite run_app. fold st.
      change (run (answer d) st) with (step Tick (step (Reply d) st)).
      eapply inv_tick_jobs. eapply inv_step; eauto.
Qed.

(** ** Single-flight dispatch *)




(** ** Correlation of replies and calls *)

Lemma valid_prefix tr1 tr2 st : valid st (tr1 ++ tr2) = true -> valid st tr1 = true.
Proof. rewrite valid_app. by intros [? _]%andb_prop. Qed.

(** The [i]-th reply of a run settles the promise of activation [i], and
    its handle as soon as the reaction job has run. *)
Lemma served_outcome tr i d :
  valid init tr = true -> replies_of tr !! i = Some d ->
  promises (run tr init) !! i = Some (outcome d)
  /\ handles (step Tick (run tr init)) !! i = Some (outcome d).
Proof.
  intros Hv Hd. pose proof (reachable_inv _ Hv) as HI.
  assert (Ho : outs_of tr !! i = Some (outcome d)).
  { unfold outs_of. by rewrite list_lookup_fmap, Hd. }
  apply lookup_lt_Some in Ho as Hi. split.
  - by rewrite (inv_promise HI i Hi).
  - pose proof (inv_tick HI) as HI'.
    rewrite (inv_handle_served HI'); [done|].
    unfold served. rewrite (inv_tick_jobs HI). simpl. lia.
Qed.


(** A run in which [d] is the next reply: the reply is dispatched to a
    queue whose head is pending, and the handle at the head takes the
    outcome of [d] for the rest of the run. *)
Lemma answered tr d tr' :
  valid init (tr ++ answer d ++ tr') = true ->
  valid init tr = true
  /\ enabled (Reply d) (run tr init) = true
  /\ valid init (tr ++ answer d) = true
  /\ promises (run (tr ++ [Reply d]) init) !! length (replies_of tr)
     = Some (outcome d)
  /\ handles (run (tr ++ answer d) init) !! length (replies_of tr)
     = Some (outcome d)
  /\ handles (run (tr ++ answer d ++ tr') init) !! length (replies_of tr)
     = Some (outcome d).
Proof.
  intros Hv. rewrite app_assoc in Hv.
  pose proof (valid_prefix _ _ _ Hv) as Hva.
  rewrite valid_app in Hv. apply andb_prop in Hv as [_ Hv'].
  assert (Hans : tr ++ answer d = (tr ++ [Reply d]) ++ [Tick]).
  { by rewrite <- app_assoc. }
  pose proof Hva as Hvr. rewrite Hans in Hvr. apply valid_prefix in Hvr.
  pose proof Hvr as Hvs. rewrite valid_snoc in Hvs.
  apply andb_prop in Hvs as [Hvt Hen].
  destruct (served_outcome (tr ++ [Reply d]) (length (replies_of tr)) d Hvr)
    as [Hp Hh].
  { rewrite replies_of_app. by apply list_lookup_middle. }
  assert (Hha : handles (run (tr ++ answer d) init) !! length (replies_of tr)
                = Some (outcome d)).
  { by rewrite Hans, run_app. }
  repeat apply conj; try done.
  rewrite app_assoc, run_app.
  eapply handle_stable_run; eauto using outcome_settled, reachable_inv.
Qed.

(** C2: in every run of the event loop the [i]-th reply answers the [i]-th
    call: that call's request was the [i]-th message posted, its promise
    takes the outcome the reply encodes, and so does the handle [toWorker]
    returned for it once the reaction job has run.  The handle of a call is
    the one numbered by the calls made before it.  In particular, when
    calls [C1..Cn] are answered by replies [R1..Rn] in that order, the
    handles hold the outcomes of [R1..Rn], in that order. *)
Theorem fifo_correlation (tr : list Event) (i : nat) (d : JsVal) :
  valid init tr = true ->
  replies_of tr !! i = Some d ->
  (exists m, calls_of tr !! i = Some m /\ posted (run tr init) !! i = Some m)
  /\ promises (run tr init) !! i = Some (outcome d)
  /\ handles (step Tick (run tr init)) !! i = Some (outcome d)
  /\ (forall tr1 m tr2, tr = tr1 ++ Call m :: tr2 ->
        fst (toWorker m (run tr1 init)) = Normal (length (calls_of tr1)))
  /\ (forall msgs ds, Forall (fun r => has_fields r = true) ds ->
        length ds = length msgs ->
        handles (run (burst msgs ds) init) = outcome <$> ds).
Proof.
  intros Hv Hd. pose proof (reachable_inv _ Hv) as HI.
  destruct (served_outcome tr i d Hv Hd) as [Hp Hh].
  repeat apply conj; try done.
  - apply lookup_lt_Some in Hd as Hi.
    pose proof (inv_bound _ _ _ HI) as Hb. unfold outs_of in Hb.
    rewrite length_fmap in Hb.
    destruct (lookup_lt_is_Some_2 (calls_of tr) i) as [m Hm]; [lia|].
    exists m. split; [done|].
    rewrite (inv_posted _ _ _ HI), lookup_take_lt; [done|].
    unfold served, outs_of. rewrite length_fmap.
    destruct (inv_jobs _ _ _ HI) as [Hj | (k & _ & Hj)]; rewrite Hj; simpl; lia.
  - intros tr1 m tr2 ->. apply valid_prefix in Hv.
    rewrite toWorker_step. simpl.
    by rewrite (inv_promises_length (reachable_inv _ Hv)).
  - intros msgs ds Hwf Hlen.
    destruct (answers_valid msgs ds Hwf) as [Hvb Hjb]; [lia|].
    pose proof (reachable_inv _ Hvb) as HIb.
    rewrite (inv_handles _ _ _ HIb). unfold served. rewrite Hjb.
    unfold burst, outs_of.
    rewrite calls_of_app, calls_of_calls, calls_of_answers, app_nil_r.
    rewrite replies_of_app, replies_of_calls, replies_of_answers. simpl.
    rewrite length_fmap, Nat.sub_0_r, Hlen, Nat.sub_diag. simpl.
    rewrite app_nil_r, take_ge; [done|]. rewrite length_fmap. lia.
Qed.

Lemma fifo_correlation_witness :
  handles (run (burst [reqX; reqY; reqZ] [ok_reply 1; err_reply "E1"]) init) !! 1
  = Some (Rejected (VObj [("code", VStr "E1")])).
Proof.
  apply (fifo_correlation
           (burst [reqX; reqY; reqZ] [ok_reply 1; err_reply "E1"])
           1 (err_reply "E1")); reflexivity.
Defined.

(** ** Error and success *)



(** C10: the discriminator is the truthiness of [err].  A payload whose
    [err] field is present and falsy, such as [0], the empty string, [null]
    or [false], fulfils the call at the head of the queue with the [value]
    field; it does not reject it. *)
Theorem falsy_err_resolves (tr : list Event) (fields : list (string * JsVal)) :
  valid init tr = true ->
  enabled (Reply (VObj fields)) (run tr init) = true ->
  has_own "err" fields = true ->
  truthy (own_field "err" fields) = false ->
  promises (step (Reply (VObj fields)) (run tr init)) !! length (replies_of tr)
    = Some (Fulfilled (own_field "value" fields))
  /\ handles (run (answer (VObj fields)) (run tr init)) !! length (replies_of tr)
     = Some (Fulfilled (own_field "value" fields))
  /\ truthy (VNum 0) = false /\ truthy (VStr "") = false
  /\ truthy VNull = false /\ truthy (VBool false) = false.
Proof.
  intros Hv Hen _ Hf.
  assert (Hv' : valid init (tr ++ [Reply (VObj fields)]) = true).
  { by rewrite valid_snoc, Hv, Hen. }
  destruct (served_outcome (tr ++ [Reply (VObj fields)])
              (length (replies_of tr)) (VObj fields) Hv') as [Hp Hh].
  { rewrite replies_of_app. by apply list_lookup_middle. }
  rewrite run_app in Hp, Hh. simpl in Hp, Hh.
  unfold outcome in Hp, Hh. simpl in Hp, Hh. rewrite Hf in Hp, Hh.
  repeat apply conj; done.
Qed.

Lemma falsy_err_resolves_witness :
  handles (run (answer (VObj [("err", VNum 0); ("value", VStr "v")]))
             (run [Call reqX] init)) !! 0
  = Some (Fulfilled (VStr "v")).
Proof.
  apply (falsy_err_resolves [Call reqX] [("err", VNum 0); ("value", VStr "v")]);
    reflexivity.
Defined.

(** ** Protocol violations *)

(** C4: a message dispatched to [onmessage] while [resolvers] is empty
    makes the handler throw a [TypeError].  The handler does not return
    normally and leaves the state as it was: no promise, no handle and no
    job is touched. *)
Theorem reply_on_empty_queue (d : JsVal) (st : State) :
  resolvers st = [] ->
  exists what, onmessage d st = (Throw (type_error what), st).
Proof.
  intros Hq. unfold onmessage. rewrite Hq. simpl.
  destruct (get_field d "err") as [e|x] eqn:He.
  - destruct (truthy e); eauto.
  - destruct d; simpl in He; try discriminate; injection He as <-; eauto.
Qed.

Lemma reply_on_empty_queue_witness :
  exists what, onmessage (ok_reply 1) init = (Throw (type_error what), init).
Proof. apply (reply_on_empty_queue (ok_reply 1) init). reflexivity. Defined.

(** C8: the [error] and [messageerror] handlers throw the event they are
    given and leave the state as it was, so no call in the queue is settled
    by it. *)
Theorem channel_errors_rethrown (e : JsVal) (st : State) :
  onerror e st = (Throw e, st) /\ onmessageerror e st = (Throw e, st).
Proof. split; reflexivity. Qed.

(** ** Settlement *)

Lemma step_tick_frame st i j :
  jobs st = [i] -> j <> i ->
  handles (step Tick st) !! j = handles st !! j
  /\ promises (step Tick st) = promises st.
Proof.
  intros Hj Hne. simpl. rewrite Hj.
  unfold resume, finally_block, post_head. simpl.
  destruct (tail (resolvers st)); simpl; by rewrite list_lookup_insert_ne.
Qed.

(** C5: the handle of a call is pending until the reply for that call is
    processed, takes the outcome of that reply then, and keeps it in every
    continuation of the run: it is settled once, as fulfilled or as
    rejected.  Processing that reply leaves the promise and the handle of
    every other call as they were. *)
Theorem settle_once_no_crosstalk (tr : list Event) (d : JsVal)
    (tr' : list Event) (j : nat) :
  valid init (tr ++ answer d ++ tr') = true ->
  handles (run tr init) !! length (replies_of tr) = Some Pending
  /\ handles (run (tr ++ answer d) init) !! length (replies_of tr)
     = Some (outcome d)
  /\ outcome d <> Pending
  /\ handles (run (tr ++ answer d ++ tr') init) !! length (replies_of tr)
     = Some (outcome d)
  /\ (j <> length (replies_of tr) ->
      handles (run (tr ++ answer d) init) !! j = handles (run tr init) !! j
      /\ promises (run (tr ++ answer d) init) !! j
         = promises (run tr init) !! j).
Proof.
  intros Hv.
  destruct (answered tr d tr' Hv) as (Hvt & Hen & _ & _ & Hha & Hh).
  pose proof (reachable_inv _ Hvt) as HI.
  destruct (onmessage_head _ _ _ d HI Hen)
    as (Hj & Hsv & Hlt & Hpp & Hhp & _ & Hon).
  assert (Hlen : length (outs_of tr) = length (replies_of tr)).
  { unfold outs_of. by rewrite length_fmap. }
  rewrite Hlen in *.
  repeat apply conj; try done.
  - apply outcome_settled.
  - intros Hne. rewrite run_app.
    change (run (answer d) (run tr init))
      with (step Tick (step (Reply d) (run tr init))).
    assert (Hst : step (Reply d) (run tr init)
                  = settle (length (replies_of tr)) (outcome d) (run tr init)).
    { unfold step. by rewrite Hon. }
    destruct (step_tick_frame (step (Reply d) (run tr init))
                (length (replies_of tr)) j) as [Hh' Hp']; [|done|].
    { rewrite Hst. unfold settle. rewrite Hpp, Hhp. simpl. by rewrite Hj. }
    rewrite Hh', Hp', step_reply_handles. split; [done|].
    rewrite Hst. unfold settle. rewrite Hpp. simpl.
    by rewrite list_lookup_insert_ne.
Qed.

Lemma settle_once_no_crosstalk_witness :
  handles (run ([Call reqX; Call reqY] ++ answer (ok_reply 1)
                ++ answer (err_reply "E1")) init) !! 0
  = Some (Fulfilled (VNum 1)).
Proof.
  apply (settle_once_no_crosstalk [Call reqX; Call reqY] (ok_reply 1)
           (answer (err_reply "E1")) 1). reflexivity.
Defined.

(** ** Failures of a call *)

(** C6: [toWorker] always returns a handle, numbered by the calls made
    before it, and never throws; in a run of the event loop the handle is
    pending when it is returned.  A handle is rejected only with the truthy
    [err] field of the reply that answered its call. *)
Theorem toWorker_no_sync_failure (m : JsVal) (st : State) (tr : list Event)
    (i : nat) (e : JsVal) :
  valid init tr = true ->
  fst (toWorker m st) = Normal (length (promises st))
  /\ toWorker m (run tr init)
     = (Normal (length (calls_of tr)), step (Call m) (run tr init))
  /\ handles (step (Call m) (run tr init)) !! length (calls_of tr)
     = Some Pending
  /\ (handles (run tr init) !! i = Some (Rejected e) ->
      exists d, replies_of tr !! i = Some d
        /\ get_field d "err" = Normal e /\ truthy e = true).
Proof.
  intros Hv. pose proof (reachable_inv _ Hv) as HI.
  repeat apply conj.
  - by rewrite toWorker_step.
  - by rewrite toWorker_step, (inv_promises_length HI).
  - pose proof (inv_call HI m) as HI'.
    apply (inv_handle_waiting HI').
    + pose proof (inv_bound _ _ _ HI). unfold served. lia.
    + rewrite length_app. simpl. lia.
  - intros Hr.
    assert (Hi : i < served (outs_of tr) (run tr init)).
    { by apply (inv_handle_settled HI i (Rejected e)). }
    rewrite (inv_handle_served HI i Hi) in Hr. unfold outs_of in Hr.
    rewrite list_lookup_fmap in Hr.
    destruct (replies_of tr !! i) as [d|]; [|done].
    exists d. split; [done|]. simpl in Hr. unfold outcome in Hr.
    destruct (truthy (field d "err")) eqn:Ht; [|done].
    injection Hr as <-. split; [|done].
    destruct d; simpl in Ht |- *; done.
Qed.

Lemma toWorker_no_sync_failure_witness :
  exists d, replies_of (burst [reqX] [err_reply "E1"]) !! 0 = Some d
    /\ get_field d "err" = Normal (VObj [("code", VStr "E1")])
    /\ truthy (VObj [("code", VStr "E1")]) = true.
Proof.
  apply (toWorker_no_sync_failure reqX init (burst [reqX] [err_reply "E1"])
           0 (VObj [("code", VStr "E1")])); reflexivity.
Defined.

(** ** Notifications *)

(** What the sequencer does next never depends on the channel log. *)
Lemma step_core ev st st' : core st = core st' -> core (step ev st) = core (step ev st').
Proof.
  destruct st as [rs ps hs po js], st' as [rs' ps' hs' po' js'].
  unfold core. simpl. intros [= -> -> -> ->]. destruct ev as [m|d|].
  - unfold step, toWorker, toWorker_body, post_head. simpl.
    by destruct rs' as [|? [|? ?]].
  - unfold step, onmessage, settle. simpl.
    destruct (get_field d "err") as [e|]; simpl; [|done].
    destruct (truthy e), (head rs') as [r|]; simpl; try done.
    + by destruct (ps' !! reject r) as [[]|].
    + destruct (get_field d "value"); simpl; [|done].
      by destruct (ps' !! resolve r) as [[]|].
  - simpl. destruct js' as [|p rest]; [done|].
    unfold resume, finally_block, post_head. simpl.
    by destruct (tail rs').
Qed.

Lemma run_core tr : forall st st', core st = core st' -> core (run tr st) = core (run tr st').
Proof.
  induction tr as [|ev tr IH]; intros st st' Hc; [done|].
  simpl. apply IH. by apply step_core.
Qed.

(** C7: [endOfRequest] returns at once, with [undefined]; it appends its
    message to the channel log and changes nothing else: [resolvers], the
    promises, the handles and the jobs are as before, and they evolve in
    every later run as if the notification had not been sent. *)
Theorem endOfRequest_bypasses_queue (id : Z) (st : State) (tr : list Event) :
  fst (endOfRequest id st) = Normal VUndefined
  /\ posted (snd (endOfRequest id st)) = posted st ++ [endOfRequest_msg id]
  /\ resolvers (snd (endOfRequest id st)) = resolvers st
  /\ promises (snd (endOfRequest id st)) = promises st
  /\ handles (snd (endOfRequest id st)) = handles st
  /\ jobs (snd (endOfRequest id st)) = jobs st
  /\ core (run tr (snd (endOfRequest id st))) = core (run tr st).
Proof. repeat apply conj; try reflexivity. by apply run_core. Qed.

(** ** Reading the body *)

Lemma reads_drained n r :
  body r = VUndefined -> reads n r = replicate n VUndefined.
Proof.
  revert r. induction n as [|n IH]; intros r Hb; simpl; [done|].
  rewrite Hb. f_equal. by apply IH.
Qed.

(** C9: when the reply to a [callHandler] request fulfils the call with
    [res] and [callHandler] returns its object, the first call of [read]
    gives [res.body] and every later call gives [undefined]. *)
Theorem body_read_once (path apiVersion : string) (id : Z) (d res : JsVal)
    (r : Response) (n : nat) :
  handles (run (burst [callHandler_msg path apiVersion id] [d]) init) !! 0
    = Some (Fulfilled res) ->
  callHandler_result res = Normal r ->
  get_field d "value" = Normal res
  /\ get_field res "body" = Normal (body r)
  /\ reads (S n) r = body r :: replicate n VUndefined.
Proof.
  intros Hh Hr. repeat apply conj.
  - unfold burst in Hh. cbn [map flat_map answer app run foldl step] in Hh.
    unfold toWorker, toWorker_body, post_head, onmessage in Hh.
    cbn in Hh.
    destruct d as [| |b|z| |s|nm ms|fields]; cbn in Hh; try discriminate;
      try (injection Hh as <-; reflexivity).
    destruct (truthy (own_field "err" fields)); cbn in Hh; [discriminate|].
    by injection Hh as <-.
  - unfold callHandler_result in Hr.
    destruct (get_field res "body") as [b|]; [|done].
    destruct (get_field res "status") as [s|]; [|done].
    destruct (get_field res "headers") as [h|]; [|done].
    by injection Hr as <-.
  - simpl. f_equal. by apply reads_drained.
Qed.

Lemma body_read_once_witness :
  reads 3 {| status := VNum 200; headers := VNum 7; body := VNum 42 |}
  = [VNum 42; VUndefined; VUndefined].
Proof.
  apply (body_read_once "/hello" "v1" 5
           (VObj [("value", VObj [("body", VNum 42); ("status", VNum 200);
                                  ("headers", VNum 7)])])
           (VObj [("body", VNum 42); ("status", VNum 200); ("headers", VNum 7)])
           {| status := VNum 200; headers := VNum 7; body := VNum 42 |} 2);
    reflexivity.
Defined.

(** * Further properties of the sequencer *)

Lemma msg_queue_from i ms : msg <$> queue_from i ms = ms.
Proof.
  revert i. induction ms as [|m ms IH]; intros i; simpl; [done|].
  f_equal. apply IH.
Qed.

Lemma take_S_option {A} (l : list A) n :
  take (S n) l = take n l ++ option_list (l !! n).
Proof.
  destruct (l !! n) as [x|] eqn:E; simpl.
  - by apply take_S_r.
  - apply lookup_ge_None in E. rewrite app_nil_r, !take_ge; [done | lia | lia].
Qed.

Lemma outs_of_length tr : length (outs_of tr) = length (replies_of tr).
Proof. unfold outs_of. by rewrite length_fmap. Qed.

(** X1: the queue holds the payloads of the calls that have not left it,
    oldest first: all calls but the answered ones, a call whose reaction
    job is still to run counting as not answered.  At most one job waits,
    and once it has run the queue is empty exactly when every call has been
    answered. *)
Theorem queue_holds_unanswered (tr : list Event) :
  valid init tr = true ->
  msg <$> resolvers (run tr init)
    = drop (length (replies_of tr) - length (jobs (run tr init))) (calls_of tr)
  /\ length (jobs (run tr init)) <= 1
  /\ (jobs (run tr init) = [] ->
      (resolvers (run tr init) = []
       <-> length (replies_of tr) = length (calls_of tr))).
Proof.
  intros Hv. pose proof (reachable_inv _ Hv) as HI.
  pose proof (inv_bound _ _ _ HI) as Hb. rewrite outs_of_length in Hb.
  repeat apply conj.
  - rewrite (inv_resolvers _ _ _ HI), msg_queue_from.
    unfold served. by rewrite outs_of_length.
  - destruct (inv_jobs _ _ _ HI) as [Hj | (k & _ & Hj)]; rewrite Hj; simpl; lia.
  - intros Hj. rewrite (inv_resolvers _ _ _ HI), queue_from_empty.
    unfold served. rewrite Hj, outs_of_length. simpl. lia.
Qed.

Lemma queue_holds_unanswered_witness :
  msg <$> resolvers (run (burst [reqX; reqY; reqZ] [ok_reply 1]) init)
  = [reqY; reqZ].
Proof.
  apply (queue_holds_unanswered (burst [reqX; reqY; reqZ] [ok_reply 1])).
  reflexivity.
Defined.

(** X2: between tasks, when the queue is not empty, the request at its
    head is the last message posted and the only one not yet replied to:
    a queued call never waits while the worker is idle. *)
Theorem head_is_in_flight (tr : list Event) (r : Resolver) :
  valid init tr = true ->
  jobs (run tr init) = [] ->
  head (resolvers (run tr init)) = Some r ->
  last (posted (run tr init)) = Some (msg r)
  /\ length (posted (run tr init)) = S (length (replies_of tr))
  /\ resolve r = length (replies_of tr)
  /\ reject r = length (replies_of tr).
Proof.
  intros Hv Hj Hr. pose proof (reachable_inv _ Hv) as HI.
  assert (Hs : served (outs_of tr) (run tr init) = length (replies_of tr)).
  { unfold served. rewrite Hj, outs_of_length. simpl. lia. }
  rewrite (inv_resolvers _ _ _ HI), Hs in Hr.
  apply queue_from_head in Hr as (Hres & Hrej & Hm).
  rewrite (inv_posted _ _ _ HI), Hs, (take_S_r _ _ _ Hm).
  apply lookup_lt_Some in Hm.
  repeat apply conj; try done.
  - apply last_snoc.
  - rewrite length_app, length_take. simpl. lia.
Qed.

Lemma head_is_in_flight_witness :
  last (posted (run (burst [reqX; reqY; reqZ] [ok_reply 1]) init)) = Some reqY
  /\ length (posted (run (burst [reqX; reqY; reqZ] [ok_reply 1]) init)) = 2.
Proof.
  destruct (head_is_in_flight (burst [reqX; reqY; reqZ] [ok_reply 1])
              {| resolve := 1; reject := 1; msg := reqY |}
              eq_refl eq_refl eq_refl) as (H1 & H2 & _).
  split; [exact H1 | exact H2].
Defined.

(** X3: the channel carries the requests in the order of the calls, each
    one once: the log is an initial part of the list of calls, and all of
    it once the queue is empty, when every call has also been answered. *)
Theorem posted_in_call_order (tr : list Event) :
  valid init tr = true ->
  (exists rest, calls_of tr = posted (run tr init) ++ rest)
  /\ (resolvers (run tr init) = [] ->
      posted (run tr init) = calls_of tr
      /\ length (replies_of tr) = length (calls_of tr)).
Proof.
  intros Hv. pose proof (reachable_inv _ Hv) as HI. split.
  - rewrite (inv_posted _ _ _ HI).
    eexists. symmetry. apply take_drop.
  - intros Hq. destruct (inv_idle HI Hq) as [Hj Hlen].
    rewrite outs_of_length in Hlen. split; [|done].
    rewrite (inv_posted _ _ _ HI), take_ge; [done|].
    unfold served. rewrite Hj, outs_of_length. simpl. lia.
Qed.

Lemma posted_in_call_order_witness :
  exists rest, calls_of interleaved = posted (run interleaved init) ++ rest.
Proof. apply (posted_in_call_order interleaved). reflexivity. Defined.

(** X4: a call that has not been answered is not settled: its promise and
    its handle are pending as long as fewer replies have arrived than calls
    were made before it and itself. *)
Theorem unanswered_calls_stay_pending (tr : list Event) (i : nat) :
  valid init tr = true ->
  length (replies_of tr) <= i ->
  i < length (calls_of tr) ->
  promises (run tr init) !! i = Some Pending
  /\ handles (run tr init) !! i = Some Pending.
Proof.
  intros Hv Hge Hlt. pose proof (reachable_inv _ Hv) as HI. split.
  - rewrite (inv_promises _ _ _ HI), lookup_app_r; rewrite outs_of_length; [|lia].
    apply lookup_replicate_2. lia.
  - apply (inv_handle_waiting HI); [|done].
    unfold served. rewrite outs_of_length. lia.
Qed.

Lemma unanswered_calls_stay_pending_witness :
  promises (run (burst [reqX; reqY; reqZ] [err_reply "E1"]) init) !! 2
    = Some Pending
  /\ handles (run (burst [reqX; reqY; reqZ] [err_reply "E1"]) init) !! 2
     = Some Pending.
Proof.
  apply (unanswered_calls_stay_pending
           (burst [reqX; reqY; reqZ] [err_reply "E1"]) 2);
    [reflexivity | simpl; lia | simpl; lia].
Defined.

(** X5: processing a reply, whatever its outcome, removes the head of the
    queue and posts the request of the next queued call, if there is one,
    and nothing else. *)
Theorem reply_dispatches_next (tr : list Event) (d : JsVal) :
  valid init (tr ++ answer d) = true ->
  posted (run (tr ++ answer d) init)
    = posted (run tr init)
      ++ option_list (calls_of tr !! S (length (replies_of tr)))
  /\ resolvers (run (tr ++ answer d) init) = tail (resolvers (run tr init)).
Proof.
  intros Hv.
  assert (Hv' : valid init (tr ++ answer d ++ []) = true) by by rewrite app_nil_r.
  destruct (answered tr d [] Hv') as (Hvt & Hen & _).
  pose proof (reachable_inv _ Hvt) as HI.
  destruct (onmessage_head _ _ _ d HI Hen) as (Hj & Hsv & _).
  pose proof (inv_reply HI d Hen) as HIr.
  pose proof (inv_tick HIr) as HIt. pose proof (inv_tick_jobs HIr) as Hjt.
  rewrite run_app.
  change (run (answer d) (run tr init))
    with (step Tick (step (Reply d) (run tr init))).
  assert (Hs : served (outs_of tr ++ [outcome d])
                 (step Tick (step (Reply d) (run tr init)))
               = S (length (replies_of tr))).
  { unfold served. rewrite Hjt, length_app, outs_of_length. simpl. lia. }
  rewrite outs_of_length in Hsv. split.
  - rewrite (inv_posted _ _ _ HIt), Hs, (inv_posted _ _ _ HI), Hsv.
    apply take_S_option.
  - rewrite (inv_resolvers _ _ _ HIt), Hs, (inv_resolvers _ _ _ HI), Hsv.
    symmetry. apply queue_from_tail.
Qed.

Lemma reply_dispatches_next_witness :
  posted (run ([Call reqX; Call reqY] ++ answer (err_reply "E1")) init)
  = [reqX; reqY].
Proof.
  apply (reply_dispatches_next [Call reqX; Call reqY] (err_reply "E1")).
  reflexivity.
Defined.

(** X6: [onmessage] returns normally exactly when the payload is neither
    [undefined] nor [null] and the queue is not empty; whenever it throws,
    it has changed nothing. *)
Theorem onmessage_throws_iff (d : JsVal) (st : State) :
  (fst (onmessage d st) = Normal tt
   <-> has_fields d = true /\ resolvers st <> [])
  /\ (forall e, fst (onmessage d st) = Throw e -> snd (onmessage d st) = st).
Proof.
  unfold onmessage, has_fields.
  destruct (get_field d "err") as [e|x] eqn:He; simpl.
  - assert (Hval : exists v, get_field d "value" = Normal v).
    { destruct d; simpl in He |- *; try discriminate; eauto. }
    destruct Hval as [v Hv]. rewrite Hv.
    destruct (resolvers st) as [|r rs], (truthy e); simpl.
    all: split;
      [ split;
        [ intros H; first [discriminate H | by split]
        | intros [H1 H2]; first [done | by destruct H2] ]
      | intros e0 H; first [discriminate H | done] ].
  - split; [split; [done | by intros [? _]] | done].
Qed.

Lemma inv_determines msgs outs st st' :
  Inv msgs outs st -> Inv msgs outs st' -> jobs st = jobs st' -> st = st'.
Proof.
  intros [_ _ _ Hr Hp Hh Hpo] [_ _ _ Hr' Hp' Hh' Hpo'] Hj.
  unfold served in *. rewrite <- Hj in *.
  destruct st as [rs ps hs po js], st' as [rs' ps' hs' po' js'].
  simpl in *. congruence.
Qed.

(** X11: the moments at which the calls are made do not matter.  Two runs
    with the same calls and the same replies, each in the same order, end
    in the same state once their reaction jobs have run, however calls and
    replies were interleaved. *)
Theorem interleaving_is_immaterial (tr1 tr2 : list Event) :
  valid init tr1 = true ->
  valid init tr2 = true ->
  calls_of tr1 = calls_of tr2 ->
  replies_of tr1 = replies_of tr2 ->
  jobs (run tr1 init) = [] ->
  jobs (run tr2 init) = [] ->
  run tr1 init = run tr2 init.
Proof.
  intros Hv1 Hv2 Hc Hr Hj1 Hj2.
  pose proof (reachable_inv _ Hv1) as HI1.
  pose proof (reachable_inv _ Hv2) as HI2.
  unfold outs_of in HI1, HI2. rewrite Hc, Hr in HI1.
  apply (inv_determines _ _ _ _ HI1 HI2). by rewrite Hj1, Hj2.
Qed.

Lemma interleaving_is_immaterial_witness :
  run [Call reqX; Reply (ok_reply 1); Call reqY; Tick] init
  = run [Call reqX; Call reqY; Reply (ok_reply 1); Tick] init.
Proof.
  apply (interleaving_is_immaterial
           [Call reqX; Reply (ok_reply 1); Call reqY; Tick]
           [Call reqX; Call reqY; Reply (ok_reply 1); Tick]); reflexivity.
Defined.

(** ** Notifications and the queue *)

Lemma step_posted_core ev st st' :
  core st = core st' ->
  exists sent, posted (step ev st) = posted st ++ sent
            /\ posted (step ev st') = posted st' ++ sent.
Proof.
  destruct st as [rs ps hs po js], st' as [rs' ps' hs' po' js'].
  unfold core. simpl. intros [= -> -> -> ->]. destruct ev as [m|d|].
  - unfold step, toWorker, toWorker_body, post_head. simpl.
    destruct rs' as [|? [|? ?]]; simpl; eauto using app_nil_r.
    all: exists []; by rewrite !app_nil_r.
  - exists []. rewrite !app_nil_r. unfold step, onmessage, settle. simpl.
    destruct (get_field d "err") as [e|]; simpl; [|done].
    destruct (truthy e), (head rs') as [r|]; simpl; try done.
    + by destruct (ps' !! reject r) as [[]|].
    + destruct (get_field d "value"); simpl; [|done].
      by destruct (ps' !! resolve r) as [[]|].
  - simpl. destruct js' as [|p rest]; [exists []; by rewrite !app_nil_r|].
    unfold resume, finally_block, post_head. simpl.
    destruct (tail rs'); simpl; eauto.
    exists []; by rewrite !app_nil_r.
Qed.

Lemma run_posted_core tr : forall st st',
  core st = core st' ->
  exists sent, posted (run tr st) = posted st ++ sent
            /\ posted (run tr st') = posted st' ++ sent.
Proof.
  induction tr as [|ev tr IH]; intros st st' Hc.
  - exists []. by rewrite !app_nil_r.
  - destruct (step_posted_core ev st st' Hc) as (s1 & H1 & H1').
    destruct (IH (step ev st) (step ev st') (step_core ev st st' Hc))
      as (s2 & H2 & H2').
    exists (s1 ++ s2). simpl. rewrite H2, H2', H1, H1'.
    by rewrite <- !app_assoc.
Qed.

(** X7: a notification is not queued behind the calls: its message goes
    out at once, ahead of every request that is dispatched later, and the
    requests posted afterwards are the ones that would have been posted
    without it. *)
Theorem notification_overtakes_queue (id : Z) (st : State) (tr : list Event) :
  exists later,
    posted (run tr st) = posted st ++ later
    /\ posted (run tr (snd (endOfRequest id st)))
       = posted st ++ endOfRequest_msg id :: later.
Proof.
  destruct (run_posted_core tr st (snd (endOfRequest id st)) eq_refl)
    as (later & H1 & H2).
  exists later. split; [done|]. rewrite H2. simpl. by rewrite <- app_assoc.
Qed.

(** ** The exported commands *)



Lemma callHandler_result_spec res :
  callHandler_result res
  = match res with
    | VUndefined | VNull => Throw (type_error "body")
    | _ => Normal {| status := field res "status";
                     headers := field res "headers";
                     body := field res "body" |}
    end.
Proof. by destruct res. Qed.

(** X9: [callHandler] needs a value in the reply.  When its call is
    answered without error and the [value] field is [undefined] or [null],
    its promise is rejected with the [TypeError] of reading [res.body];
    with any other value it is fulfilled with an object holding that
    value's [status], [headers] and [body], [undefined] where one is
    missing. *)
Theorem callHandler_needs_value (path apiVersion : string) (id : Z)
    (tr : list Event) (i : nat) (d : JsVal) :
  valid init tr = true ->
  calls_of tr !! i = Some (callHandler_msg path apiVersion id) ->
  replies_of tr !! i = Some d ->
  truthy (field d "err") = false ->
  callHandler_settle (default Pending (handles (step Tick (run tr init)) !! i))
  = match field d "value" with
    | VUndefined | VNull => HRejected (type_error "body")
    | res => HFulfilled {| status := field res "status";
                           headers := field res "headers";
                           body := field res "body" |}
    end.
Proof.
  intros Hv _ Hd Hf. destruct (served_outcome tr i d Hv Hd) as [_ Hh].
  rewrite Hh. simpl. unfold outcome. rewrite Hf. simpl.
  rewrite callHandler_result_spec. by destruct (field d "value").
Qed.

Lemma callHandler_needs_value_witness :
  callHandler_settle
    (default Pending
       (handles (run (burst [callHandler_msg "/hello" "v1" 5] [VObj []]) init)
          !! 0))
  = HRejected (type_error "body").
Proof.
  apply (callHandler_needs_value "/hello" "v1" 5
           (burst [callHandler_msg "/hello" "v1" 5] [VObj []]) 0 (VObj []));
    reflexivity.
Defined.

Lemma own_field_missing k fields :
  has_own k fields = false -> own_field k fields = VUndefined.
Proof.
  unfold has_own. induction fields as [|[k' v] rest IH]; simpl; [done|].
  destruct (String.eqb k k'); simpl; [done | exact IH].
Qed.

(** X10: when the value of the reply is an object without a [body] field,
    [read] gives [undefined] from its first call on. *)
Theorem read_without_body (fields : list (string * JsVal)) (r : Response)
    (n : nat) :
  callHandler_result (VObj fields) = Normal r ->
  has_own "body" fields = false ->
  reads n r = replicate n VUndefined.
Proof.
  intros Hr Hb. rewrite callHandler_result_spec in Hr. injection Hr as <-.
  apply reads_drained. simpl. by apply own_field_missing.
Qed.

Lemma read_without_body_witness :
  reads 2 {| status := VNum 204; headers := VNum 7; body := VUndefined |}
  = [VUndefined; VUndefined].
Proof.
  apply (read_without_body [("status", VNum 204); ("headers", VNum 7)]
           {| status := VNum 204; headers := VNum 7; body := VUndefined |} 2);
    reflexivity.
Defined.
